(** * Sonora: the playback controller [BasicMusicPlayer]

    A shallow embedding of [src/core/playback/BasicMusicPlayer.cpp] and of the
    interface it implements ([IMusicPlayer.h]).

    - The object's fields are a record; every member function is a
      computation over a world made of the object and a chronological trace
      of what the function did to the outside (observer callbacks, lines on
      [std::cout] / [std::cerr], calls into the rendering backend).
    - A computation either returns, throws a C++ exception, or never
      returns to its caller.
    - [double] is the kernel's binary64 [float].
    - The two external collaborators are parameters: the observers'
      callbacks (only whether a callback throws matters to the player) and
      the rendering backend's [openAudioFile].
    - The mutexes are not modelled: each member function, and each piece of
      the worker between two polls, runs as one atomic step. *)

From Stdlib Require Import String List Bool Arith Lia PrimFloat DecimalString.
Import ListNotations.
Local Open Scope string_scope.
Local Open Scope list_scope.

(** ** Data *)

(** [enum class RepeatMode { None, Single, All }] *)
Module RepeatMode.
Inductive t : Set := None | Single | All.
End RepeatMode.

(** A [std::shared_ptr<IPlaybackObserver>] is compared by address
    ([obs == observer] in [removeObserver]); an observer is that address. *)
Definition observer : Set := nat.

(** The five callbacks of [IPlaybackObserver], with their arguments. *)
Inductive event : Set :=
| PlaybackStarted
| PlaybackPaused
| PlaybackStopped
| TrackChanged (uri : string)
| PlaybackProgress (position duration : float).

(** What a member function does to the outside, in the order it does it.
    [Fired e] marks the entry of the [notify...] function of [e];
    [Invoked o e] is the call of [o]'s callback for [e];
    [Opened uri] is a call of [openAudioFile]. *)
Inductive action : Set :=
| Fired (e : event)
| Invoked (o : observer) (e : event)
| Cout (line : string)
| Cerr (line : string)
| Opened (uri : string).

(** Where the thread behind [mPlaybackThread] stands in
    [playbackThreadFunction]: not yet at line 238, between two polls of the
    loop of line 251, or returned. *)
Inductive worker_pc : Set := AtEntry | InLoop | Finished.

(** The fields of [BasicMusicPlayer]. [mQueue] has its front at the head of
    the list. [mPlaybackThread] is [None] when the [std::thread] is not
    joinable. The FFmpeg fields are never read and are left out. *)
Record BasicMusicPlayer : Set := mkPlayer {
  mIsPlaying : bool;
  mIsPaused : bool;
  mShouldStop : bool;
  mCurrentPosition : float;
  mDuration : float;
  mCurrentTrack : string;
  mRepeatMode : RepeatMode.t;
  mShuffleMode : bool;
  mQueue : list string;
  mObservers : list observer;
  mPlaybackThread : option worker_pc
}.

Definition set_mIsPlaying (b : bool) (p : BasicMusicPlayer) :=
  mkPlayer b (mIsPaused p) (mShouldStop p) (mCurrentPosition p) (mDuration p)
    (mCurrentTrack p) (mRepeatMode p) (mShuffleMode p) (mQueue p)
    (mObservers p) (mPlaybackThread p).

Definition set_mIsPaused (b : bool) (p : BasicMusicPlayer) :=
  mkPlayer (mIsPlaying p) b (mShouldStop p) (mCurrentPosition p) (mDuration p)
    (mCurrentTrack p) (mRepeatMode p) (mShuffleMode p) (mQueue p)
    (mObservers p) (mPlaybackThread p).

Definition set_mShouldStop (b : bool) (p : BasicMusicPlayer) :=
  mkPlayer (mIsPlaying p) (mIsPaused p) b (mCurrentPosition p) (mDuration p)
    (mCurrentTrack p) (mRepeatMode p) (mShuffleMode p) (mQueue p)
    (mObservers p) (mPlaybackThread p).

Definition set_mCurrentPosition (x : float) (p : BasicMusicPlayer) :=
  mkPlayer (mIsPlaying p) (mIsPaused p) (mShouldStop p) x (mDuration p)
    (mCurrentTrack p) (mRepeatMode p) (mShuffleMode p) (mQueue p)
    (mObservers p) (mPlaybackThread p).

Definition set_mDuration (x : float) (p : BasicMusicPlayer) :=
  mkPlayer (mIsPlaying p) (mIsPaused p) (mShouldStop p) (mCurrentPosition p) x
    (mCurrentTrack p) (mRepeatMode p) (mShuffleMode p) (mQueue p)
    (mObservers p) (mPlaybackThread p).

Definition set_mCurrentTrack (s : string) (p : BasicMusicPlayer) :=
  mkPlayer (mIsPlaying p) (mIsPaused p) (mShouldStop p) (mCurrentPosition p)
    (mDuration p) s (mRepeatMode p) (mShuffleMode p) (mQueue p)
    (mObservers p) (mPlaybackThread p).

Definition set_mRepeatMode (m : RepeatMode.t) (p : BasicMusicPlayer) :=
  mkPlayer (mIsPlaying p) (mIsPaused p) (mShouldStop p) (mCurrentPosition p)
    (mDuration p) (mCurrentTrack p) m (mShuffleMode p) (mQueue p)
    (mObservers p) (mPlaybackThread p).

Definition set_mShuffleMode (b : bool) (p : BasicMusicPlayer) :=
  mkPlayer (mIsPlaying p) (mIsPaused p) (mShouldStop p) (mCurrentPosition p)
    (mDuration p) (mCurrentTrack p) (mRepeatMode p) b (mQueue p)
    (mObservers p) (mPlaybackThread p).

Definition set_mQueue (q : list string) (p : BasicMusicPlayer) :=
  mkPlayer (mIsPlaying p) (mIsPaused p) (mShouldStop p) (mCurrentPosition p)
    (mDuration p) (mCurrentTrack p) (mRepeatMode p) (mShuffleMode p) q
    (mObservers p) (mPlaybackThread p).

Definition set_mObservers (l : list observer) (p : BasicMusicPlayer) :=
  mkPlayer (mIsPlaying p) (mIsPaused p) (mShouldStop p) (mCurrentPosition p)
    (mDuration p) (mCurrentTrack p) (mRepeatMode p) (mShuffleMode p) (mQueue p)
    l (mPlaybackThread p).

Definition set_mPlaybackThread (t : option worker_pc) (p : BasicMusicPlayer) :=
  mkPlayer (mIsPlaying p) (mIsPaused p) (mShouldStop p) (mCurrentPosition p)
    (mDuration p) (mCurrentTrack p) (mRepeatMode p) (mShuffleMode p) (mQueue p)
    (mObservers p) t.

(** The constructor (lines 30-45): the member initialisers, and the default
    constructed string, queue, vector and thread. *)
Definition constructed : BasicMusicPlayer :=
  mkPlayer false false false 0%float 0%float "" RepeatMode.None false [] [] None.

(** The spec's three-valued playback state, read off the two flags the code
    keeps. *)
Inductive PlaybackState : Set := Stopped | Playing | Paused.

Definition state_of (p : BasicMusicPlayer) : PlaybackState :=
  if mIsPlaying p then (if mIsPaused p then Paused else Playing) else Stopped.

(** ** Worlds, outcomes and computations *)

Record World : Set := mkWorld {
  player : BasicMusicPlayer;
  trace : list action
}.

(** [std::errc] values carried by the [std::system_error] of
    [std::thread::join]. *)
Inductive errc : Set := resource_deadlock_would_occur | invalid_argument.

Inductive exn : Set :=
| observer_failure (o : observer) (e : event)
| system_error (code : errc).

(** How a call ends: it returns, an exception leaves it, or control never
    comes back to the caller (the call blocks for ever or the process is
    ended by [std::terminate]). *)
Inductive outcome (A : Type) : Type :=
| Returned (a : A) (w : World)
| Threw (x : exn) (w : World)
| NoReturn.
Arguments Returned {A} a w.
Arguments Threw {A} x w.
Arguments NoReturn {A}.

Definition M (A : Type) : Type := World -> outcome A.

Definition ret {A} (a : A) : M A := fun w => Returned a w.

Definition bind {A B} (m : M A) (k : A -> M B) : M B :=
  fun w =>
    match m w with
    | Returned a w' => k a w'
    | Threw x w' => Threw x w'
    | NoReturn => NoReturn
    end.

Notation "x <- c1 ;; c2" := (bind c1 (fun x => c2))
  (at level 61, c1 at next level, right associativity).
Notation "c1 ;; c2" := (bind c1 (fun _ => c2))
  (at level 61, right associativity).

Definition get : M BasicMusicPlayer := fun w => Returned (player w) w.

Definition modify (f : BasicMusicPlayer -> BasicMusicPlayer) : M unit :=
  fun w => Returned tt (mkWorld (f (player w)) (trace w)).

Definition emit (a : action) : M unit :=
  fun w => Returned tt (mkWorld (player w) (trace w ++ [a])).

Definition throw {A} (x : exn) : M A := fun w => Threw x w.

Definition no_return {A} : M A := fun _ => NoReturn.

(** An exception that leaves a thread's function calls [std::terminate]:
    seen from a thread waiting for that one, the wait never ends. *)
Definition in_thread (m : M unit) : M unit :=
  fun w =>
    match m w with
    | Returned a w' => Returned a w'
    | Threw _ _ => NoReturn
    | NoReturn => NoReturn
    end.

(** The thread a member function is called on: the thread that owns the
    player and issues commands, or the thread held in [mPlaybackThread]. *)
Inductive thread : Set := Controller | Worker.

(** An argument of type [const std::string&]: a reference to a string of the
    caller, or to the field [mCurrentTrack] itself (as in
    [play(mCurrentTrack)]), read each time it is used. *)
Inductive string_ref : Set :=
| val (s : string)
| ref_mCurrentTrack.

Definition read (r : string_ref) : M string :=
  p <- get ;;
  ret (match r with val s => s | ref_mCurrentTrack => mCurrentTrack p end).

(** [operator<<] on a [size_t]. *)
Definition show_size (n : nat) : string := NilEmpty.string_of_uint (Nat.to_uint n).

(** The line [debug::printQueue] writes (lines 16-24). *)
Definition printQueue_line (queue : list string) : string :=
  ("Queue contents: " ++ String.concat "" (map (fun s => s ++ " ")%string queue))%string.

(** Example collaborators and players used to run the model. *)
Definition silent : observer -> event -> bool := fun _ _ => false.

Definition stub_backend : string -> bool := fun _ => true.

Definition broken_backend : string -> bool := fun _ => false.

(** Observer [7] throws from every callback, the others never do. *)
Definition seven_throws : observer -> event -> bool :=
  fun o _ => Nat.eqb o 7.

Definition fresh : World := mkWorld constructed [].

Definition with_observers (l : list observer) : World :=
  mkWorld (set_mObservers l constructed) [].

(** Observers [1] and [2] registered, ["a"] and ["b"] enqueued, stopped. *)
Definition queued_ab : World :=
  mkWorld (set_mQueue ["a"; "b"] (set_mObservers [1; 2] constructed)) [].

(** A player as [play("c")] leaves it, the worker not yet started, with a
    given queue. *)
Definition just_started (queue : list string) : World :=
  mkWorld
    (mkPlayer true false false 0%float 0%float "c" RepeatMode.None false queue
       [1; 2] (Some AtEntry))
    [].

(** A player playing ["c"] whose worker is polling, in a given repeat mode
    and with a given queue. *)
Definition polling (mode : RepeatMode.t) (queue : list string) : World :=
  mkWorld
    (mkPlayer true false false 0%float 180%float "c" mode false queue [1; 2]
       (Some InLoop))
    [].

(** ** The member functions *)

Section Player.

(** [callback_throws o e]: does the callback of observer [o] for event [e]
    end by throwing?  [backend_opens uri]: the result of the rendering
    backend for [uri] (the stub of lines 285-289 answers [true] for all). *)
Variable callback_throws : observer -> event -> bool.
Variable backend_opens : string -> bool.

(** [observer->onX(...)]: the callback runs, and either returns or throws. *)
Definition invoke (o : observer) (e : event) : M unit :=
  emit (Invoked o e) ;;
  if callback_throws o e then throw (observer_failure o e) else ret tt.

(** [for (auto& observer : mObservers) observer->onX(...)] *)
Fixpoint for_each (observers : list observer) (e : event) : M unit :=
  match observers with
  | [] => ret tt
  | o :: rest => invoke o e ;; for_each rest e
  end.

(** The common body of the five [notify...] functions (lines 199-232). *)
Definition notify (e : event) : M unit :=
  emit (Fired e) ;;
  p <- get ;;
  for_each (mObservers p) e.

Definition notifyPlaybackStarted : M unit := notify PlaybackStarted.
Definition notifyPlaybackPaused : M unit := notify PlaybackPaused.
Definition notifyPlaybackStopped : M unit := notify PlaybackStopped.
Definition notifyTrackChanged (uri : string) : M unit := notify (TrackChanged uri).
Definition notifyPlaybackProgress (position duration : float) : M unit :=
  notify (PlaybackProgress position duration).

(** Lines 285-289, with the backend's answer in place of the stub's. *)
Definition openAudioFile (uri : string) : M bool :=
  emit (Opened uri) ;;
  ret (backend_opens uri).

(** Lines 291-293. *)
Definition closeAudioFile : M unit := ret tt.

Definition joinable (p : BasicMusicPlayer) : bool :=
  match mPlaybackThread p with Some _ => true | None => false end.

Definition at_pc (pc : worker_pc) : M unit :=
  modify (set_mPlaybackThread (Some pc)).

(** [playbackThreadFunction], lines 238-247: the single attempt to open the
    track, and on success the duration and the position. *)
Definition worker_entry : M unit :=
  p <- get ;;
  opened <- openAudioFile (mCurrentTrack p) ;;
  if negb opened then
    p <- get ;;
    emit (Cerr ("Failed to open audio file: " ++ mCurrentTrack p)%string) ;;
    modify (set_mIsPlaying false) ;;
    notifyPlaybackStopped ;;
    at_pc Finished
  else
    modify (set_mDuration 180%float) ;;
    modify (set_mCurrentPosition 0%float) ;;
    at_pc InLoop.

(** The test of the loop of line 251. *)
Definition keeps_polling (p : BasicMusicPlayer) : bool :=
  mIsPlaying p && negb (mShouldStop p).

(** Line 282 and the return of the thread's function. *)
Definition worker_exit : M unit :=
  closeAudioFile ;;
  at_pc Finished.

(** What the worker still runs while another thread waits for it in
    [join]: from the entry it first opens the track; in the loop it leaves
    as soon as the test of line 251 fails. While that test holds the worker
    keeps polling, for ever when paused and otherwise until the track has
    completed; completion ends in an exception that leaves the thread's
    function (see [completion_ends_in_self_join]), so the waiting thread
    never goes on. *)
Definition worker_remainder : M unit :=
  p <- get ;;
  match mPlaybackThread p with Some AtEntry => worker_entry | _ => ret tt end ;;
  p <- get ;;
  match mPlaybackThread p with
  | Some InLoop => if keeps_polling p then no_return else worker_exit
  | _ => ret tt
  end.

(** [mPlaybackThread.join()] called on thread [self]. A thread that joins
    itself gets [std::system_error] with [resource_deadlock_would_occur];
    joining a thread that is not joinable gives [invalid_argument]. The
    controller waits until the worker has returned; afterwards the thread
    object is no longer joinable. *)
Definition join (self : thread) : M unit :=
  p <- get ;;
  match mPlaybackThread p with
  | None => throw (system_error invalid_argument)
  | Some _ =>
    match self with
    | Worker => throw (system_error resource_deadlock_would_occur)
    | Controller =>
      in_thread worker_remainder ;;
      modify (set_mPlaybackThread None)
    end
  end.

(** Lines 95-110. *)
Definition stop (self : thread) : M unit :=
  p <- get ;;
  if mIsPlaying p then
    modify (set_mShouldStop true) ;;
    modify (set_mIsPlaying false) ;;
    modify (set_mIsPaused false) ;;
    p <- get ;;
    (if joinable p then join self else ret tt) ;;
    modify (set_mCurrentTrack "") ;;
    modify (set_mCurrentPosition 0%float) ;;
    notifyPlaybackStopped
  else ret tt.

(** Lines 52-79. The queue is swapped with an empty one and [uri] pushed;
    the new thread starts at the entry of [playbackThreadFunction]. *)
Definition play (self : thread) (uri : string_ref) : M unit :=
  stop self ;;
  modify (set_mQueue []) ;;
  u <- read uri ;;
  modify (fun p => set_mQueue (mQueue p ++ [u]) p) ;;
  u <- read uri ;;
  modify (set_mCurrentTrack u) ;;
  modify (set_mIsPlaying true) ;;
  modify (set_mIsPaused false) ;;
  modify (set_mShouldStop false) ;;
  p <- get ;;
  (if joinable p then join self else ret tt) ;;
  at_pc AtEntry ;;
  u <- read uri ;;
  notifyTrackChanged u ;;
  notifyPlaybackStarted.

(** Lines 81-86. *)
Definition pause : M unit :=
  p <- get ;;
  if mIsPlaying p && negb (mIsPaused p) then
    modify (set_mIsPaused true) ;;
    notifyPlaybackPaused
  else ret tt.

(** Lines 88-93. *)
Definition resume : M unit :=
  p <- get ;;
  if mIsPlaying p && mIsPaused p then
    modify (set_mIsPaused false) ;;
    notifyPlaybackStarted
  else ret tt.

(** Lines 112-132. [nextTrack] is a local copy of the front. *)
Definition next (self : thread) : M unit :=
  p <- get ;;
  emit (Cout ("mQueue size before next: " ++ show_size (List.length (mQueue p)))%string) ;;
  emit (Cout (printQueue_line (mQueue p))) ;;
  if (List.length (mQueue p) <=? 1)%nat then
    emit (Cerr "Queue is empty, cannot play next track.") ;;
    stop self
  else
    p <- get ;;
    match mQueue p with
    | [] => ret tt
    | nextTrack :: rest =>
      modify (set_mQueue rest) ;;
      play self (val nextTrack)
    end.

(** Lines 134-140: [play] receives a reference to [mCurrentTrack]. *)
Definition previous (self : thread) : M unit :=
  p <- get ;;
  if negb (String.eqb (mCurrentTrack p) "") then play self ref_mCurrentTrack
  else ret tt.

(** Lines 142-147. *)
Definition seek (position : float) : M unit :=
  modify (set_mCurrentPosition position) ;;
  p <- get ;;
  notifyPlaybackProgress (mCurrentPosition p) (mDuration p).

(** Lines 149-152. *)
Definition enqueue (uri : string) : M unit :=
  modify (fun p => set_mQueue (mQueue p ++ [uri]) p).

(** Lines 154-158. *)
Definition clearQueue : M unit := modify (set_mQueue []).

(** Lines 160-166. *)
Definition setRepeatMode (mode : RepeatMode.t) : M unit :=
  modify (set_mRepeatMode mode).

Definition setShuffleMode (shuffle : bool) : M unit :=
  modify (set_mShuffleMode shuffle).

(** Lines 168-178. *)
Definition getCurrentPosition (p : BasicMusicPlayer) : float := mCurrentPosition p.

Definition getDuration (p : BasicMusicPlayer) : float := mDuration p.

Definition isPlaying (p : BasicMusicPlayer) : bool :=
  mIsPlaying p && negb (mIsPaused p).

(** Lines 180-183. *)
Definition addObserver (o : observer) : M unit :=
  modify (fun p => set_mObservers (mObservers p ++ [o]) p).

(** [std::remove_if(first, last, pred)]: the elements for which [pred] is
    false, in their order. *)
Fixpoint remove_if {A} (pred : A -> bool) (l : list A) : list A :=
  match l with
  | [] => []
  | x :: rest => if pred x then remove_if pred rest else x :: remove_if pred rest
  end.

(** Lines 185-197: erase-remove with the predicate [obs == observer]. *)
Definition removeObserver (o : observer) : M unit :=
  modify (fun p => set_mObservers (remove_if (fun obs => Nat.eqb obs o) (mObservers p)) p).

(** What the worker does when the position has reached the duration
    (lines 261-274), each branch ending in [return]. It calls the public
    functions on its own thread. *)
Definition completion : M unit :=
  p <- get ;;
  match mRepeatMode p with
  | RepeatMode.Single => play Worker ref_mCurrentTrack
  | RepeatMode.All =>
    p <- get ;;
    enqueue (mCurrentTrack p) ;;
    next Worker
  | RepeatMode.None => next Worker
  end.

(** One pass of the loop of lines 251-280, where [elapsed] is the reading
    of the steady clock since the worker entered the loop.
    [mCurrentPosition >= mDuration] is [mDuration <= mCurrentPosition]. *)
Definition worker_poll (elapsed : float) : M unit :=
  p <- get ;;
  if keeps_polling p then
    if negb (mIsPaused p) then
      modify (set_mCurrentPosition elapsed) ;;
      p <- get ;;
      notifyPlaybackProgress (mCurrentPosition p) (mDuration p) ;;
      p <- get ;;
      if (mDuration p <=? mCurrentPosition p)%float then completion
      else ret tt
    else ret tt
  else worker_exit.

(** A step of the thread behind [mPlaybackThread], if it has one to take. *)
Definition worker_step (elapsed : float) : M unit :=
  p <- get ;;
  match mPlaybackThread p with
  | Some AtEntry => worker_entry
  | Some InLoop => worker_poll elapsed
  | _ => ret tt
  end.

(** The public interface, as a client calls it on the controlling thread. *)
Inductive command : Set :=
| Play (uri : string)
| Pause
| Resume
| Stop
| Next
| Previous
| Seek (position : float)
| Enqueue (uri : string)
| ClearQueue
| SetRepeatMode (mode : RepeatMode.t)
| SetShuffleMode (shuffle : bool)
| AddObserver (o : observer)
| RemoveObserver (o : observer).

Definition call (c : command) : M unit :=
  match c with
  | Play uri => play Controller (val uri)
  | Pause => pause
  | Resume => resume
  | Stop => stop Controller
  | Next => next Controller
  | Previous => previous Controller
  | Seek position => seek position
  | Enqueue uri => enqueue uri
  | ClearQueue => clearQueue
  | SetRepeatMode mode => setRepeatMode mode
  | SetShuffleMode shuffle => setShuffleMode shuffle
  | AddObserver o => addObserver o
  | RemoveObserver o => removeObserver o
  end.

(** A sequence of calls; it stops at the first that does not return. *)
Fixpoint calls (cs : list command) : M unit :=
  match cs with
  | [] => ret tt
  | c :: rest => call c ;; calls rest
  end.

(** ** Vocabulary of the statements *)

(** The trace of one notification over the registry [observers], when no
    callback throws: the event is fired and every observer is called, in
    registration order. *)
Definition fired (e : event) (observers : list observer) : list action :=
  Fired e :: map (fun o => Invoked o e) observers.

Definition logged (w : World) (l : list action) : World :=
  mkWorld (player w) (trace w ++ l).

(** No registered observer throws from any callback. *)
Definition quiet (p : BasicMusicPlayer) : Prop :=
  forall o e, In o (mObservers p) -> callback_throws o e = false.

(** A thread object that still holds a running worker belongs to a player
    whose [mIsPlaying] is set: only the worker itself and [stop], which
    joins it, ever clear the flag. *)
Definition thread_ok (p : BasicMusicPlayer) : Prop :=
  mIsPlaying p = false ->
  mPlaybackThread p = None \/ mPlaybackThread p = Some Finished.

(** A worker that has not yet run line 238 will find its track openable
    (always so with the stub of lines 285-289). *)
Definition pending_open_succeeds (p : BasicMusicPlayer) : Prop :=
  mPlaybackThread p = Some AtEntry -> backend_opens (mCurrentTrack p) = true.

Definition is_stopped_event (a : action) : bool :=
  match a with Fired PlaybackStopped => true | _ => false end.

Definition is_track_changed (a : action) : bool :=
  match a with Fired (TrackChanged _) => true | _ => false end.

Definition is_started_event (a : action) : bool :=
  match a with Fired PlaybackStarted => true | _ => false end.

(** How many times an event of the given kind was fired in a trace. *)
Definition count (kind : action -> bool) (l : list action) : nat :=
  List.length (filter kind l).

(** The world a call leaves behind, when there is one. *)
Definition final {A} (r : outcome A) : option World :=
  match r with
  | Returned _ w => Some w
  | Threw _ w => Some w
  | NoReturn => None
  end.

Definition nonneg (x : float) : Prop := (0 <=? x)%float = true.

(** A call a client may make when it only ever seeks forward of the start. *)
Definition seeks_nonneg (c : command) : Prop :=
  match c with Seek position => nonneg position | _ => True end.

(** The worlds a player can be in: it is constructed, the client calls the
    public functions (a call that throws is survived by a client that
    catches), and the worker takes steps in between, its clock readings
    being those of a steady clock. A worker step that throws ends the
    process. [reachable_by] takes the calls and clock readings allowed. *)
Inductive reachable_by (allowed : command -> Prop) (clock : float -> Prop) : World -> Prop :=
| reach_constructed : reachable_by allowed clock fresh
| reach_call c w w' :
    reachable_by allowed clock w -> allowed c -> final (call c w) = Some w' ->
    reachable_by allowed clock w'
| reach_worker elapsed w w' :
    reachable_by allowed clock w -> clock elapsed ->
    worker_step elapsed w = Returned tt w' ->
    reachable_by allowed clock w'.

(** What the spec's words "removes the first structurally-equal match" say,
    to be compared with [removeObserver]. *)
Fixpoint remove_first_match (h : observer) (l : list observer) : list observer :=
  match l with
  | [] => []
  | o :: rest => if Nat.eqb o h then rest else o :: remove_first_match h rest
  end.

(** What [stop] leaves of a player that was playing. Only the duration
    depends on the worker that was joined: it is [180] when that worker
    first had to open the track, and unchanged otherwise. *)
Definition stopped_player (d : float) (p : BasicMusicPlayer) : BasicMusicPlayer :=
  mkPlayer false false true 0%float d "" (mRepeatMode p) (mShuffleMode p)
    (mQueue p) (mObservers p) None.

(** What [play] leaves of a player once [stop] has run. *)
Definition playing_player (uri : string) (p : BasicMusicPlayer) : BasicMusicPlayer :=
  mkPlayer true false false (mCurrentPosition p) (mDuration p) uri
    (mRepeatMode p) (mShuffleMode p) [uri] (mObservers p) (Some AtEntry).

(** A computation keeps a property of the player when every world it
    leaves behind, returning or throwing, has it. *)
Definition keeps {A} (I : BasicMusicPlayer -> Prop) (m : M A) : Prop :=
  forall w w', I (player w) -> final (m w) = Some w' -> I (player w').

Definition position_nonneg (p : BasicMusicPlayer) : Prop :=
  nonneg (mCurrentPosition p).

(** ** Reasoning about computations *)

Ltac ops :=
  cbv [play stop next previous pause resume seek enqueue clearQueue
       setRepeatMode setShuffleMode addObserver removeObserver completion
       worker_poll worker_step worker_entry worker_exit worker_remainder
       join joinable keeps_polling at_pc openAudioFile closeAudioFile
       notifyPlaybackStarted notifyPlaybackPaused notifyPlaybackStopped
       notifyTrackChanged notifyPlaybackProgress notify invoke read call
       bind ret get modify emit throw no_return in_thread logged final
       set_mIsPlaying set_mIsPaused set_mShouldStop set_mCurrentPosition
       set_mDuration set_mCurrentTrack set_mRepeatMode set_mShuffleMode
       set_mQueue set_mObservers set_mPlaybackThread
       player trace mIsPlaying mIsPaused mShouldStop mCurrentPosition
       mDuration mCurrentTrack mRepeatMode mShuffleMode mQueue mObservers
       mPlaybackThread isPlaying state_of getCurrentPosition getDuration
       quiet thread_ok pending_open_succeeds negb andb].

Lemma bind_returned {A B} (m : M A) (k : A -> M B) w a w1 :
  m w = Returned a w1 -> bind m k w = k a w1.
Proof. unfold bind. intros ->. reflexivity. Qed.

Lemma bind_returned_inv {A B} (m : M A) (k : A -> M B) w b w' :
  bind m k w = Returned b w' ->
  exists a w1, m w = Returned a w1 /\ k a w1 = Returned b w'.
Proof.
  unfold bind. destruct (m w) as [a w1| |]; try discriminate.
  intros H. exists a, w1. split; [reflexivity | exact H].
Qed.

(** The loop over the registry either calls every observer, none of which
    throws, or stops at the first whose callback throws. *)
Lemma for_each_outcome observers e w :
  (for_each observers e w =
     Returned tt (mkWorld (player w) (trace w ++ map (fun o => Invoked o e) observers))
   /\ forall o, In o observers -> callback_throws o e = false) \/
  (exists pre o post,
     observers = pre ++ o :: post /\
     (forall o', In o' pre -> callback_throws o' e = false) /\
     callback_throws o e = true /\
     for_each observers e w =
       Threw (observer_failure o e)
         (mkWorld (player w) (trace w ++ map (fun o => Invoked o e) (pre ++ [o])))).
Proof.
  revert w. induction observers as [|o rest IH]; intros [p tr].
  - left. cbn. rewrite app_nil_r. split; [reflexivity | intros o []].
  - cbn [for_each]. ops.
    destruct (callback_throws o e) eqn:Ho.
    + right. exists [], o, rest. cbn. repeat split; try assumption. intros o' [].
    + destruct (IH (mkWorld p (tr ++ [Invoked o e])))
        as [[E Hq]|(pre & o' & post & -> & Hpre & Ho' & E)].
      * left. rewrite E. ops. cbn [map]. rewrite <- app_assoc. split; [reflexivity|].
        intros o' [<-|Hin]; auto.
      * right. exists (o :: pre), o', post. rewrite E. ops. cbn [map app].
        rewrite <- app_assoc. repeat split; try assumption.
        intros o'' [<-|Hin]; auto.
Qed.

Lemma for_each_quiet observers e w :
  (forall o e, In o observers -> callback_throws o e = false) ->
  for_each observers e w =
  Returned tt (mkWorld (player w) (trace w ++ map (fun o => Invoked o e) observers)).
Proof.
  intros Hq.
  destruct (for_each_outcome observers e w)
    as [[E _]|(pre & o & post & -> & _ & Ho & _)].
  - exact E.
  - rewrite Hq in Ho by (apply in_or_app; right; left; reflexivity). discriminate.
Qed.

(** Run a computation whose observers are known not to throw. *)
Ltac quietly Hq := repeat (ops; rewrite ?for_each_quiet by exact Hq).

(** Split on how the next loop over the registry ends. *)
Ltac split_for_each :=
  match goal with
  | |- context [for_each ?l ?e ?W] =>
    let E := fresh "E" in
    destruct (for_each_outcome l e W)
      as [[E _]|(? & ? & ? & _ & _ & _ & E)];
    rewrite E; clear E
  end.

Ltac all_outcomes := repeat (ops; try split_for_each).

Lemma count_app kind l1 l2 : count kind (l1 ++ l2) = count kind l1 + count kind l2.
Proof. unfold count. rewrite filter_app, length_app. reflexivity. Qed.

Lemma count_invocations kind e observers :
  (forall o e', kind (Invoked o e') = false) ->
  count kind (map (fun o => Invoked o e) observers) = 0.
Proof.
  intros Hk. unfold count. induction observers as [|o rest IH]; [reflexivity|].
  cbn. rewrite Hk. exact IH.
Qed.

Lemma count_cons kind a l :
  count kind (a :: l) = (if kind a then 1 else 0) + count kind l.
Proof. unfold count. cbn. destruct (kind a); reflexivity. Qed.

Lemma count_nil kind : count kind [] = 0.
Proof. reflexivity. Qed.

Ltac counting :=
  unfold fired;
  repeat (rewrite ?count_app, ?count_cons, ?count_nil,
            ?count_invocations by (intros; reflexivity));
  try reflexivity.

(** ** [stop] *)

Lemma stop_when_stopped self w :
  mIsPlaying (player w) = false -> stop self w = Returned tt w.
Proof. destruct w as [p tr]. unfold stop, bind, get. cbn. intros ->. reflexivity. Qed.

Lemma stop_returned w w' :
  stop Controller w = Returned tt w' ->
  exists extra d,
    trace w' = trace w ++ extra /\
    player w' = (if mIsPlaying (player w) then stopped_player d (player w) else player w) /\
    count is_track_changed extra = 0 /\
    count is_started_event extra = 0 /\
    (mIsPlaying (player w) = false -> extra = []) /\
    (mIsPlaying (player w) = true -> pending_open_succeeds (player w) ->
     exists joined,
       extra = joined ++ fired PlaybackStopped (mObservers (player w)) /\
       count is_stopped_event joined = 0).
Proof.
  destruct w as [[pl pa ss pos dur cur rm sh q obs th] tr].
  destruct pl.
  2:{ rewrite stop_when_stopped by reflexivity. intros [= <-].
      exists [], dur. cbn. rewrite app_nil_r. repeat split; try reflexivity.
      intros [=]. }
  destruct th as [[| |]|]; [destruct (backend_opens cur) eqn:Hb| | |].
  all: all_outcomes; try rewrite Hb; all_outcomes; try discriminate.
  all: intros [= <-]; cbn [trace player]; rewrite <- ?app_assoc; cbn [app].
  all: eexists; eexists; split; [reflexivity|]; unfold stopped_player; ops.
  all: split; [reflexivity|]; split; [counting|]; split; [counting|].
  all: split; [intros [=]|]; intros _ Ho.
  2:{ specialize (Ho eq_refl). congruence. }
  - exists [Opened cur]. unfold fired; split; reflexivity.
  - exists []. unfold fired; split; reflexivity.
  - exists []. unfold fired; split; reflexivity.
  - exists []. unfold fired; split; reflexivity.
Qed.

Lemma stop_returns w :
  quiet (player w) -> exists w', stop Controller w = Returned tt w'.
Proof.
  destruct w as [[pl pa ss pos dur cur rm sh q obs th] tr]. ops. intros Hq.
  destruct pl; [|eexists; reflexivity].
  destruct th as [[| |]|]; [destruct (backend_opens cur) eqn:Hb| | |].
  all: quietly Hq; try rewrite Hb; quietly Hq; eexists; reflexivity.
Qed.

(** Whatever way [stop] ends, it leaves the flag [mIsPlaying] cleared and
    neither the queue nor the registry touched. *)
Lemma stop_final w w' :
  final (stop Controller w) = Some w' ->
  mIsPlaying (player w') = false /\
  mQueue (player w') = mQueue (player w) /\
  mObservers (player w') = mObservers (player w) /\
  exists extra,
    trace w' = trace w ++ extra /\
    count is_track_changed extra = 0 /\
    count is_started_event extra = 0.
Proof.
  destruct w as [[pl pa ss pos dur cur rm sh q obs th] tr].
  destruct pl.
  2:{ rewrite stop_when_stopped by reflexivity. intros [= <-].
      repeat split. exists []. cbn. rewrite app_nil_r. repeat split. }
  destruct th as [[| |]|]; [destruct (backend_opens cur) eqn:Hb| | |].
  all: all_outcomes; try rewrite Hb; all_outcomes; try discriminate.
  all: intros [= <-]; cbn [trace player]; rewrite <- ?app_assoc; cbn [app].
  all: repeat split; eexists; (split; [reflexivity|]); split; counting.
Qed.

(** ** [play] *)

Lemma play_returned uri w w' :
  thread_ok (player w) ->
  play Controller (val uri) w = Returned tt w' ->
  exists before d,
    player w' =
      playing_player uri
        (if mIsPlaying (player w) then stopped_player d (player w) else player w) /\
    trace w' =
      trace w ++ before ++ fired (TrackChanged uri) (mObservers (player w))
              ++ fired PlaybackStarted (mObservers (player w)) /\
    count is_track_changed before = 0 /\
    count is_started_event before = 0.
Proof.
  intros Hok Hplay. unfold play in Hplay.
  apply bind_returned_inv in Hplay. destruct Hplay as ([] & w1 & Hstop & Hrest).
  apply stop_returned in Hstop.
  destruct Hstop as (extra & d & Htr & Hp & Hc1 & Hc2 & _ & _).
  exists extra, d.
  destruct w as [[pl pa ss pos dur cur rm sh q obs th] tr].
  destruct w1 as [p1 tr1]. cbn [player trace mIsPlaying mObservers] in *.
  subst tr1 p1. revert Hrest. unfold playing_player, stopped_player, fired.
  destruct pl.
  - all_outcomes; try discriminate. intros [= <-]. ops.
    rewrite <- !app_assoc. cbn [app]. repeat split; assumption.
  - destruct (Hok eq_refl) as [E | E]; cbn in E; subst th.
    all: all_outcomes; try discriminate; intros [= <-]; ops.
    all: rewrite <- !app_assoc; cbn [app]; repeat split; assumption.
Qed.

Lemma play_returns uri w :
  thread_ok (player w) -> quiet (player w) ->
  exists w', play Controller (val uri) w = Returned tt w'.
Proof.
  intros Hok Hq. destruct (stop_returns w Hq) as [w1 Hstop].
  unfold play. rewrite (bind_returned _ _ _ _ _ Hstop).
  apply stop_returned in Hstop.
  destruct Hstop as (extra & d & Htr & Hp & _).
  destruct w as [[pl pa ss pos dur cur rm sh q obs th] tr].
  destruct w1 as [p1 tr1]. cbn [player trace mIsPlaying mObservers] in *.
  subst tr1 p1. unfold stopped_player. revert Hq. ops. intros Hq.
  destruct pl.
  - quietly Hq. eexists; reflexivity.
  - destruct (Hok eq_refl) as [E | E]; cbn in E; subst th; quietly Hq; eexists; reflexivity.
Qed.

(** ** The worker *)

(** Called on the worker's own thread while the player is playing, [next]
    writes the queue it finds and then runs into [stop]'s [join] of the
    very thread that is running it. *)
Lemma next_on_worker_self_join w :
  mIsPlaying (player w) = true ->
  joinable (player w) = true ->
  exists w' rest,
    next Worker w = Threw (system_error resource_deadlock_would_occur) w' /\
    trace w' =
      trace w ++ [Cout ("mQueue size before next: "
                        ++ show_size (List.length (mQueue (player w))))%string;
                  Cout (printQueue_line (mQueue (player w)))] ++ rest.
Proof.
  destruct w as [[pl pa ss pos dur cur rm sh q obs th] tr].
  cbn [player mIsPlaying joinable mPlaybackThread mQueue trace].
  intros -> Hj. destruct th as [pc|]; [clear Hj | discriminate].
  destruct q as [|a [|b q]]; cbn [List.length Nat.leb]; ops;
    cbn [List.length Nat.leb]; ops; rewrite <- ?app_assoc; cbn [app];
    eexists; eexists; (split; [reflexivity|]); cbn [trace]; reflexivity.
Qed.

(** Whatever the repeat mode, the completion logic run by a worker of a
    playing player ends in that self-join: the exception leaves
    [playbackThreadFunction]. *)
Lemma completion_ends_in_self_join w :
  mIsPlaying (player w) = true ->
  joinable (player w) = true ->
  exists w', completion w = Threw (system_error resource_deadlock_would_occur) w'.
Proof.
  intros Hpl Hj. unfold completion, bind at 1, get.
  destruct (mRepeatMode (player w)) eqn:Hm.
  - destruct (next_on_worker_self_join w Hpl Hj) as (w' & rest & E & _).
    exists w'. exact E.
  - destruct w as [[pl pa ss pos dur cur rm sh q obs th] tr].
    cbn [player mIsPlaying joinable mPlaybackThread] in *. subst pl.
    destruct th as [pc|]; [|discriminate]. ops. eexists; reflexivity.
  - unfold bind at 1, get. unfold enqueue, bind, modify.
    match goal with |- context [next Worker ?W] =>
      destruct (next_on_worker_self_join W) as (w' & rest & E & _) end.
    + exact Hpl.
    + exact Hj.
    + exists w'. exact E.
Qed.


(** ** Invariants of the reachable worlds *)

Section Keeps.

Variable I : BasicMusicPlayer -> Prop.

Lemma keeps_ret {A} (a : A) : keeps I (ret a).
Proof. intros w w' Hw [= <-]. exact Hw. Qed.

Lemma keeps_throw {A} (x : exn) : keeps I (@throw A x).
Proof. intros w w' Hw [= <-]. exact Hw. Qed.

Lemma keeps_no_return {A} : keeps I (@no_return A).
Proof. intros w w' Hw [=]. Qed.

Lemma keeps_get : keeps I get.
Proof. intros w w' Hw [= <-]. exact Hw. Qed.

Lemma keeps_emit (a : action) : keeps I (emit a).
Proof. intros w w' Hw [= <-]. exact Hw. Qed.

Lemma keeps_modify (f : BasicMusicPlayer -> BasicMusicPlayer) :
  (forall p, I p -> I (f p)) -> keeps I (modify f).
Proof. intros Hf w w' Hw [= <-]. apply Hf. exact Hw. Qed.

Lemma keeps_bind {A B} (m : M A) (k : A -> M B) :
  keeps I m -> (forall a, keeps I (k a)) -> keeps I (bind m k).
Proof.
  intros Hm Hk w w' Hw. unfold bind.
  destruct (m w) as [a w1|x w1|] eqn:E.
  - apply (Hk a w1). apply (Hm w w1 Hw). rewrite E. reflexivity.
  - intros [= <-]. apply (Hm w w1 Hw). rewrite E. reflexivity.
  - intros [=].
Qed.

Lemma keeps_in_thread (m : M unit) : keeps I m -> keeps I (in_thread m).
Proof.
  intros Hm w w' Hw. unfold in_thread.
  destruct (m w) as [a w1|x w1|] eqn:E; try discriminate.
  intros [= <-]. apply (Hm w w1 Hw). rewrite E. reflexivity.
Qed.

Lemma keeps_for_each observers e : keeps I (for_each observers e).
Proof.
  induction observers as [|o rest IH]; cbn [for_each].
  - apply keeps_ret.
  - apply keeps_bind; [|intros _; exact IH].
    unfold invoke. apply keeps_bind; [apply keeps_emit|intros _].
    destruct (callback_throws o e); [apply keeps_throw | apply keeps_ret].
Qed.

Lemma keeps_notify e : keeps I (notify e).
Proof.
  unfold notify. apply keeps_bind; [apply keeps_emit|intros _].
  apply keeps_bind; [apply keeps_get|intros p]. apply keeps_for_each.
Qed.

End Keeps.

Ltac keeps_structure :=
  repeat first
    [ apply keeps_ret | apply keeps_throw | apply keeps_no_return
    | apply keeps_get | apply keeps_emit | apply keeps_notify
    | apply keeps_in_thread
    | apply keeps_bind; [|intro]
    | match goal with
      | |- keeps _ (if ?b then _ else _) => destruct b
      | |- keeps _ (match ?x with _ => _ end) => destruct x
      end ].

Ltac keeps_position :=
  keeps_structure;
  try (apply keeps_modify; intros ? ?; first [assumption | reflexivity]).

Lemma stop_keeps_position self : keeps position_nonneg (stop self).
Proof.
  unfold stop, join, worker_remainder, worker_entry, worker_exit, at_pc,
    openAudioFile, closeAudioFile, notifyPlaybackStopped.
  keeps_position.
Qed.

Lemma play_keeps_position self uri : keeps position_nonneg (play self uri).
Proof.
  unfold play, read. apply keeps_bind; [apply stop_keeps_position|intros _].
  unfold join, worker_remainder, worker_entry, worker_exit, at_pc,
    openAudioFile, closeAudioFile, notifyPlaybackStopped, notifyTrackChanged,
    notifyPlaybackStarted.
  keeps_position.
Qed.

Lemma next_keeps_position self : keeps position_nonneg (next self).
Proof. unfold next. keeps_position. Qed.

Lemma call_keeps_position c :
  seeks_nonneg c -> keeps position_nonneg (call c).
Proof.
  destruct c; cbn [call seeks_nonneg]; intros Hc;
    try apply stop_keeps_position; try apply play_keeps_position;
    try apply next_keeps_position.
  all: unfold pause, resume, previous, seek, enqueue, clearQueue, setRepeatMode,
         setShuffleMode, addObserver, removeObserver, notifyPlaybackPaused,
         notifyPlaybackStarted, notifyPlaybackProgress.
  all: keeps_position.
Qed.

Lemma worker_step_keeps_position elapsed :
  nonneg elapsed -> keeps position_nonneg (worker_step elapsed).
Proof.
  intros He.
  unfold worker_step, worker_poll, worker_entry, worker_exit, completion, at_pc,
    openAudioFile, closeAudioFile, notifyPlaybackStopped, notifyPlaybackProgress,
    enqueue.
  keeps_position.
Qed.

(** C8 (amended). In every world reached from the constructor by public
    calls whose [seek] arguments are non-negative, with worker steps in
    between whose clock readings are non-negative, the position is
    non-negative: [getCurrentPosition()] returns no negative value.
    [seek(position)] itself stores its argument as it is, whatever way the
    notification that follows ends. *)
Theorem position_nonneg_when_seeks_are (w : World) :
  reachable_by seeks_nonneg nonneg w ->
  nonneg (getCurrentPosition (player w)) /\
  forall position w',
    final (call (Seek position) w) = Some w' ->
    getCurrentPosition (player w') = position.
Proof.
  intros Hr. split.
  - induction Hr as [|c w w' _ IH Hc Hcall|elapsed w w' _ IH He Hstep].
    + reflexivity.
    + exact (call_keeps_position c Hc w w' IH Hcall).
    + apply (worker_step_keeps_position elapsed He w w' IH).
      rewrite Hstep. reflexivity.
  - clear Hr. intros position w'. destruct w as [p tr]. cbn [call].
    unfold seek, bind at 1 2, modify, get, notifyPlaybackProgress.
    cbn [player trace]. intros Hfin.
    assert (Hk : keeps (fun q => mCurrentPosition q = position)
                   (notify (PlaybackProgress
                              (mCurrentPosition (set_mCurrentPosition position p))
                              (mDuration (set_mCurrentPosition position p)))))
      by apply keeps_notify.
    exact (Hk (mkWorld (set_mCurrentPosition position p) tr) w' eq_refl Hfin).
Qed.

(** The hypothesis [thread_ok] of the statements above holds in every
    reachable world, whatever the calls and the clock readings. *)

Ltac thread_ok_cases :=
  all_outcomes; try discriminate;
  try (intros Hok [= <-]; ops; intros Hpl;
       first [ discriminate Hpl
             | left; reflexivity
             | right; reflexivity
             | exact (Hok Hpl)
             | destruct (Hok eq_refl); discriminate ]).

Lemma play_keeps_thread_ok uri : keeps thread_ok (play Controller uri).
Proof.
  intros [[pl pa ss pos dur cur rm sh q obs th] tr] w'.
  destruct uri as [u|], pl, th as [[| |]|];
    try destruct (backend_opens cur) eqn:Hb.
  all: try solve [ops; intros Hok; destruct (Hok eq_refl); discriminate].
  all: all_outcomes; try rewrite Hb; thread_ok_cases.
Qed.

Lemma stop_keeps_thread_ok : keeps thread_ok (stop Controller).
Proof.
  intros [[pl pa ss pos dur cur rm sh q obs th] tr] w'.
  destruct pl, th as [[| |]|]; try destruct (backend_opens cur) eqn:Hb.
  all: try solve [ops; intros Hok; destruct (Hok eq_refl); discriminate].
  all: all_outcomes; try rewrite Hb; thread_ok_cases.
Qed.

Lemma call_keeps_thread_ok c : keeps thread_ok (call c).
Proof.
  destruct c; cbn [call];
    try apply play_keeps_thread_ok; try apply stop_keeps_thread_ok.
  - intros [[pl pa ss pos dur cur rm sh q obs th] tr] w'.
    destruct pl, pa; thread_ok_cases.
  - intros [[pl pa ss pos dur cur rm sh q obs th] tr] w'.
    destruct pl, pa; thread_ok_cases.
  - intros [p tr] w' Hok. unfold next, bind at 1 2 3, get, emit.
    cbn [player trace].
    destruct (List.length (mQueue p) <=? 1)%nat.
    + unfold bind at 1, emit. cbn [player trace].
      apply stop_keeps_thread_ok. exact Hok.
    + unfold bind at 1, get. cbn [player trace].
      destruct (mQueue p) as [|nextTrack rest].
      * intros [= <-]. exact Hok.
      * unfold bind at 1, modify. cbn [player trace].
        apply play_keeps_thread_ok. destruct p. exact Hok.
  - intros [p tr] w' Hok. unfold previous, bind at 1, get. cbn [player trace].
    destruct (negb (mCurrentTrack p =? "")%string).
    + apply play_keeps_thread_ok. exact Hok.
    + intros [= <-]. exact Hok.
  - intros [[pl pa ss pos dur cur rm sh q obs th] tr] w'. thread_ok_cases.
  - intros [[pl pa ss pos dur cur rm sh q obs th] tr] w'. thread_ok_cases.
  - intros [[pl pa ss pos dur cur rm sh q obs th] tr] w'. thread_ok_cases.
  - intros [[pl pa ss pos dur cur rm sh q obs th] tr] w'. thread_ok_cases.
  - intros [[pl pa ss pos dur cur rm sh q obs th] tr] w'. thread_ok_cases.
  - intros [[pl pa ss pos dur cur rm sh q obs th] tr] w'. thread_ok_cases.
  - intros [[pl pa ss pos dur cur rm sh q obs th] tr] w'. thread_ok_cases.
Qed.

Lemma worker_step_keeps_thread_ok elapsed w w' :
  thread_ok (player w) ->
  worker_step elapsed w = Returned tt w' ->
  thread_ok (player w').
Proof.
  intros Hok Hstep.
  destruct w as [[pl pa ss pos dur cur rm sh q obs th] tr].
  destruct th as [[| |]|].
  - revert Hok Hstep. destruct pl, (backend_opens cur) eqn:Hb.
    all: try solve [ops; intros Hok; destruct (Hok eq_refl); discriminate].
    all: all_outcomes; rewrite Hb; all_outcomes; try discriminate.
    all: intros Hok [= <-]; ops; intros Hpl;
      first [discriminate Hpl | right; reflexivity].
  - revert Hok Hstep. unfold worker_step, bind at 1, get. cbn [player trace mPlaybackThread].
    unfold worker_poll, bind at 1, get. cbn [player trace].
    destruct (keeps_polling _) eqn:Hk.
    2:{ ops. intros _ [= <-]. ops. intros _. right. reflexivity. }
    unfold keeps_polling in Hk. cbn [mIsPlaying mShouldStop] in Hk.
    apply andb_true_iff in Hk. destruct Hk as [-> _].
    cbn [mIsPaused]. destruct pa; cbn [negb].
    { intros _ [= <-]. ops. intros [=]. }
    unfold bind at 1 2 3 4, modify, get, notifyPlaybackProgress. cbn [player trace].
    intros _.
    match goal with |- context [notify ?e ?W] =>
      pose proof (keeps_notify (fun p => mIsPlaying p = true /\ joinable p = true) e W) as Hn;
      destruct (notify e W) as [[] w1|x w1|] eqn:En; try discriminate
    end.
    specialize (Hn w1 (conj eq_refl eq_refl) eq_refl). destruct Hn as [Hpl Hj].
    destruct (mDuration (player w1) <=? mCurrentPosition (player w1))%float.
    + destruct (completion_ends_in_self_join w1 Hpl Hj) as [w2 E]. rewrite E.
      discriminate.
    + intros [= <-]. intros Hf. rewrite Hf in Hpl. discriminate.
  - revert Hok Hstep. ops. intros Hok [= <-]. exact Hok.
  - revert Hok Hstep. ops. intros Hok [= <-]. exact Hok.
Qed.

Lemma reachable_thread_ok allowed clock w :
  reachable_by allowed clock w -> thread_ok (player w).
Proof.
  intros Hr. induction Hr as [|c w w' _ IH _ Hcall|elapsed w w' _ IH _ Hstep].
  - intros _. left. reflexivity.
  - exact (call_keeps_thread_ok c w w' IH Hcall).
  - exact (worker_step_keeps_thread_ok elapsed w w' IH Hstep).
Qed.

(** ** The claims about the controller's operations *)

(** C1. For a player whose thread object is consistent with its flag,
    [play(uri)] returns when no observer throws, and whenever it returns
    the queue is exactly [[uri]] (what was enqueued before is discarded),
    the current track is [uri], [isPlaying()] is true, and the call fired
    track-changed([uri]) and then playback-started, and no other
    track-changed or playback-started before them. *)
Theorem play_contract (uri : string) (w : World) :
  thread_ok (player w) ->
  (quiet (player w) -> exists w', call (Play uri) w = Returned tt w') /\
  (forall w', call (Play uri) w = Returned tt w' ->
     mQueue (player w') = [uri] /\
     mCurrentTrack (player w') = uri /\
     isPlaying (player w') = true /\
     exists before,
       trace w' =
         trace w ++ before ++ fired (TrackChanged uri) (mObservers (player w))
                 ++ fired PlaybackStarted (mObservers (player w)) /\
       count is_track_changed before = 0 /\
       count is_started_event before = 0).
Proof.
  intros Hok. split.
  - intros Hq. exact (play_returns uri w Hok Hq).
  - intros w' Hplay. cbn [call] in Hplay.
    destruct (play_returned uri w w' Hok Hplay) as (before & d & Hp & Htr & Hc).
    rewrite Hp. repeat split. exists before. split; [exact Htr | exact Hc].
Qed.


(** C3 (amended). Calling [stop()] twice in a row fires playback-stopped
    once when the player was not Stopped and not at all when it already
    was, and the second call is a no-op. When the state is not Stopped,
    [stop()] clears the current track, resets the position, leaves the
    state Stopped and ends by firing playback-stopped. *)
Theorem stop_twice (w : World) :
  quiet (player w) ->
  pending_open_succeeds (player w) ->
  exists w1 new,
    call Stop w = Returned tt w1 /\
    call Stop w1 = Returned tt w1 /\
    calls [Stop; Stop] w = Returned tt w1 /\
    trace w1 = trace w ++ new /\
    count is_stopped_event new = (if mIsPlaying (player w) then 1 else 0) /\
    (state_of (player w) = Stopped -> w1 = w) /\
    (state_of (player w) <> Stopped ->
       mCurrentTrack (player w1) = "" /\
       mCurrentPosition (player w1) = 0%float /\
       state_of (player w1) = Stopped /\
       exists joined,
         new = joined ++ fired PlaybackStopped (mObservers (player w))).
Proof.
  intros Hq Hopen. cbn [call calls].
  destruct (stop_returns w Hq) as [w1 Hstop].
  assert (Hagain : stop Controller w1 = Returned tt w1).
  { apply stop_when_stopped.
    assert (Hf : final (stop Controller w) = Some w1) by (rewrite Hstop; reflexivity).
    apply stop_final in Hf. tauto. }
  destruct (stop_returned w w1 Hstop) as (new & d & Htr & Hp & _ & _ & Hnil & Hone).
  exists w1, new. split; [exact Hstop|]. split; [exact Hagain|].
  split.
  { unfold bind. rewrite Hstop, Hagain. reflexivity. }
  split; [exact Htr|].
  destruct (mIsPlaying (player w)) eqn:Hpl.
  - destruct (Hone eq_refl Hopen) as (joined & -> & Hj).
    split.
    { rewrite count_app, Hj. counting. }
    split.
    { unfold state_of. rewrite Hpl. destruct (mIsPaused (player w)); discriminate. }
    intros _. rewrite Hp. repeat split. exists joined. reflexivity.
  - rewrite (Hnil eq_refl) in *. split; [reflexivity|]. split.
    + intros _. destruct w as [p tr], w1 as [p1 tr1]. cbn [player trace] in *.
      rewrite app_nil_r in Htr. congruence.
    + unfold state_of. rewrite Hpl. intros H. contradiction H. reflexivity.
Qed.

(** C4. When a poll of the worker finds the position at or past the
    duration and the repeat mode is All, the current track is appended to
    the tail of the queue, once, and [next()] is then invoked on that
    queue: the poll is [next()] run from a world whose queue is the old
    queue followed by the current track, and the queue [next()] prints on
    entry is that one. *)
Theorem repeat_all_requeues_before_next (elapsed : float) (w : World) :
  mPlaybackThread (player w) = Some InLoop ->
  keeps_polling (player w) = true ->
  mIsPaused (player w) = false ->
  mRepeatMode (player w) = RepeatMode.All ->
  (mDuration (player w) <=? elapsed)%float = true ->
  quiet (player w) ->
  exists w1,
    player w1 =
      set_mQueue (mQueue (player w) ++ [mCurrentTrack (player w)])
        (set_mCurrentPosition elapsed (player w)) /\
    trace w1 =
      trace w ++ fired (PlaybackProgress elapsed (mDuration (player w)))
                   (mObservers (player w)) /\
    worker_step elapsed w = next Worker w1 /\
    exists w2 rest,
      final (worker_step elapsed w) = Some w2 /\
      trace w2 =
        trace w1
        ++ [Cout ("mQueue size before next: "
                  ++ show_size (S (List.length (mQueue (player w)))))%string;
            Cout (printQueue_line (mQueue (player w) ++ [mCurrentTrack (player w)]))]
        ++ rest.
Proof.
  destruct w as [[pl pa ss pos dur cur rm sh q obs th] tr].
  unfold keeps_polling, quiet.
  cbn [player trace mPlaybackThread mIsPlaying mShouldStop mIsPaused
       mRepeatMode mDuration mObservers mQueue mCurrentTrack].
  intros -> Hk -> -> Hdone Hq.
  apply andb_true_iff in Hk. destruct Hk as [-> Hss].
  apply negb_true_iff in Hss. subst ss.
  set (w1 := mkWorld
               (mkPlayer true false false elapsed dur cur RepeatMode.All sh
                  (q ++ [cur]) obs (Some InLoop))
               (tr ++ fired (PlaybackProgress elapsed dur) obs)).
  assert (Hstep :
    worker_step elapsed
      (mkWorld (mkPlayer true false false pos dur cur RepeatMode.All sh q obs
                  (Some InLoop)) tr) = next Worker w1).
  { unfold worker_step, worker_poll, completion, enqueue, notifyPlaybackProgress,
      notify, keeps_polling, bind, get, modify, emit, set_mCurrentPosition,
      set_mQueue.
    cbn [player trace mPlaybackThread mIsPlaying mShouldStop mIsPaused
         mRepeatMode mDuration mObservers mQueue mCurrentTrack
         mCurrentPosition mShuffleMode andb negb].
    rewrite for_each_quiet by exact Hq.
    cbn [player trace mPlaybackThread mIsPlaying mShouldStop mIsPaused
         mRepeatMode mDuration mObservers mQueue mCurrentTrack
         mCurrentPosition mShuffleMode andb negb].
    rewrite Hdone. unfold w1, fired. rewrite <- app_assoc. reflexivity. }
  exists w1. split; [reflexivity|]. split; [reflexivity|]. split; [exact Hstep|].
  rewrite Hstep.
  destruct (next_on_worker_self_join w1 eq_refl eq_refl) as (w2 & rest & E & Htr).
  exists w2, rest. rewrite E. split; [reflexivity|].
  rewrite Htr. unfold w1. cbn [player mQueue]. rewrite length_app, Nat.add_comm.
  reflexivity.
Qed.

(** C5. A worker whose backend cannot open the track marks the player
    Stopped, fires playback-stopped and returns, having called the backend
    once; it takes no further step. [play] itself has returned normally
    before the worker runs, whatever the backend will answer. *)
Theorem open_failure_is_handled_by_worker (uri : string) (elapsed : float) (w : World) :
  thread_ok (player w) ->
  quiet (player w) ->
  backend_opens uri = false ->
  exists w1 w2,
    call (Play uri) w = Returned tt w1 /\
    worker_step elapsed w1 = Returned tt w2 /\
    state_of (player w2) = Stopped /\
    mPlaybackThread (player w2) = Some Finished /\
    trace w2 =
      trace w1
      ++ [Opened uri; Cerr ("Failed to open audio file: " ++ uri)%string]
      ++ fired PlaybackStopped (mObservers (player w)) /\
    forall elapsed', worker_step elapsed' w2 = Returned tt w2.
Proof.
  intros Hok Hq Hb.
  destruct (play_returns uri w Hok Hq) as [w1 Hplay].
  destruct (play_returned uri w w1 Hok Hplay) as (before & d & Hp & _).
  exists w1. destruct w1 as [p1 tr1]. cbn [player] in Hp. subst p1.
  destruct w as [[pl pa ss pos dur cur rm sh q obs th] tr].
  assert (Hq1 : forall o e, In o obs -> callback_throws o e = false) by exact Hq.
  clear Hok Hq. revert Hplay. unfold playing_player, stopped_player.
  destruct pl; intros Hplay; (eexists; split; [exact Hplay|]); clear Hplay.
  all: ops; rewrite Hb; quietly Hq1.
  all: unfold fired; rewrite <- !app_assoc; cbn [app]; repeat split.
Qed.

(** ** The observer registry *)

Lemma remove_if_filter {A} (pred : A -> bool) (l : list A) :
  remove_if pred l = filter (fun x => negb (pred x)) l.
Proof.
  induction l as [|x rest IH]; [reflexivity|].
  cbn. destruct (pred x); cbn; rewrite IH; reflexivity.
Qed.

Lemma remove_if_absent (h : observer) (l : list observer) :
  ~ In h l -> remove_if (fun obs => Nat.eqb obs h) l = l.
Proof.
  induction l as [|x rest IH]; [reflexivity|].
  intros Hn. cbn. destruct (Nat.eqb_spec x h) as [->|Hne].
  - contradiction Hn. left. reflexivity.
  - rewrite IH; [reflexivity|]. intros Hin. apply Hn. right. exact Hin.
Qed.

(** C6 (amended). [removeObserver(h)] returns without touching anything but
    the registry, from which it erases every registration equal to [h] and
    keeps the others in their order: [h] is registered no more, and every
    other observer keeps all its registrations. When [h] is not registered
    the call changes nothing, so every later notification is the same. *)
Theorem removeObserver_erases_every_match (h : observer) (w : World) :
  exists w',
    call (RemoveObserver h) w = Returned tt w' /\
    trace w' = trace w /\
    player w' =
      set_mObservers (filter (fun o => negb (Nat.eqb o h)) (mObservers (player w)))
        (player w) /\
    ~ In h (mObservers (player w')) /\
    (forall o, o <> h ->
       count_occ Nat.eq_dec (mObservers (player w')) o =
       count_occ Nat.eq_dec (mObservers (player w)) o) /\
    (~ In h (mObservers (player w)) ->
       w' = w /\ forall e, notify e w' = notify e w).
Proof.
  destruct w as [p tr]. cbn [call]. unfold removeObserver, modify.
  cbn [player trace]. eexists. split; [reflexivity|]. cbn [player trace].
  split; [reflexivity|]. rewrite remove_if_filter. split; [reflexivity|].
  destruct p as [pl pa ss pos dur cur rm sh q obs th].
  cbn [set_mObservers mObservers]. split; [|split].
  - intros Hin. apply filter_In in Hin. destruct Hin as [_ Hne].
    rewrite Nat.eqb_refl in Hne. discriminate.
  - intros o Hne. induction obs as [|x rest IH]; [reflexivity|].
    cbn [filter]. destruct (Nat.eqb_spec x h) as [->|Hx]; cbn [negb].
    + rewrite count_occ_cons_neq by congruence. exact IH.
    + cbn [count_occ]. destruct (Nat.eq_dec x o); rewrite IH; reflexivity.
  - intros Hn. rewrite <- remove_if_filter, remove_if_absent by exact Hn.
    unfold set_mObservers. cbn. split; reflexivity.
Qed.

Lemma for_each_throws pre o post e w :
  (forall o', In o' pre -> callback_throws o' e = false) ->
  callback_throws o e = true ->
  for_each (pre ++ o :: post) e w =
  Threw (observer_failure o e)
    (mkWorld (player w) (trace w ++ map (fun o => Invoked o e) (pre ++ [o]))).
Proof.
  revert w. induction pre as [|x pre IH]; intros [p tr] Hpre Ho.
  - cbn [app for_each]. ops. rewrite Ho. reflexivity.
  - cbn [app for_each]. ops. rewrite (Hpre x (or_introl eq_refl)).
    rewrite IH by (auto; intros; apply Hpre; right; assumption).
    ops. cbn [map app]. rewrite <- app_assoc. reflexivity.
Qed.

Lemma notify_throws pre o post e w :
  mObservers (player w) = pre ++ o :: post ->
  (forall o', In o' pre -> callback_throws o' e = false) ->
  callback_throws o e = true ->
  notify e w = Threw (observer_failure o e) (logged w (fired e (pre ++ [o]))).
Proof.
  intros Hobs Hpre Ho. destruct w as [p tr]. unfold notify, bind, emit, get.
  cbn [player trace] in *. rewrite Hobs, for_each_throws by assumption.
  unfold logged, fired. cbn [player trace]. rewrite <- app_assoc. reflexivity.
Qed.

Lemma notify_quiet e w :
  (forall o, In o (mObservers (player w)) -> callback_throws o e = false) ->
  notify e w = Returned tt (logged w (fired e (mObservers (player w)))).
Proof.
  intros Hq. destruct w as [p tr]. unfold notify, bind, emit, get.
  cbn [player trace] in *.
  destruct (for_each_outcome (mObservers p) e (mkWorld p (tr ++ [Fired e])))
    as [[E _]|(pre & o & post & Hl & _ & Ho & _)].
  - rewrite E. unfold logged, fired. cbn [player trace]. rewrite <- app_assoc.
    reflexivity.
  - rewrite Hq in Ho by (rewrite Hl; apply in_or_app; right; left; reflexivity).
    discriminate.
Qed.

(** C7 (amended). Nothing catches what an observer throws. If the callback
    of a registered observer throws, the notification has called the
    observers registered before it and that one, in registration order, and
    no observer registered after it; the exception leaves the notifying
    function and the operation that notifies ([seek], [pause] and [resume]
    here), and so reaches the caller of that operation. *)
Theorem throwing_observer_ends_notification
    (e : event) (w : World) (pre post : list observer) (o : observer) :
  mObservers (player w) = pre ++ o :: post ->
  (forall o', In o' pre -> callback_throws o' e = false) ->
  callback_throws o e = true ->
  notify e w = Threw (observer_failure o e) (logged w (fired e (pre ++ [o]))) /\
  (forall position,
     e = PlaybackProgress position (mDuration (player w)) ->
     call (Seek position) w =
     Threw (observer_failure o e)
       (logged (mkWorld (set_mCurrentPosition position (player w)) (trace w))
          (fired e (pre ++ [o])))) /\
  (e = PlaybackPaused -> state_of (player w) = Playing ->
     call Pause w =
     Threw (observer_failure o e)
       (logged (mkWorld (set_mIsPaused true (player w)) (trace w))
          (fired e (pre ++ [o])))) /\
  (e = PlaybackStarted -> state_of (player w) = Paused ->
     call Resume w =
     Threw (observer_failure o e)
       (logged (mkWorld (set_mIsPaused false (player w)) (trace w))
          (fired e (pre ++ [o])))).
Proof.
  intros Hobs Hpre Ho. split; [apply (notify_throws pre o post); assumption|].
  destruct w as [[pl pa ss pos dur cur rm sh q obs th] tr].
  cbn [player mObservers mDuration] in *. split; [|split].
  - intros position ->. cbn [call]. unfold seek, bind at 1 2, modify, get.
    unfold notifyPlaybackProgress.
    cbn [player trace set_mCurrentPosition mCurrentPosition mDuration].
    apply (notify_throws pre o post); assumption.
  - intros -> Hst. unfold state_of in Hst. cbn [mIsPlaying mIsPaused] in Hst.
    destruct pl; [|discriminate]. destruct pa; [discriminate|].
    cbn [call]. unfold pause, bind, modify, get, notifyPlaybackPaused.
    cbn [player trace mIsPlaying mIsPaused andb negb].
    apply (notify_throws pre o post); assumption.
  - intros -> Hst. unfold state_of in Hst. cbn [mIsPlaying mIsPaused] in Hst.
    destruct pl; [|discriminate]. destruct pa; [|discriminate].
    cbn [call]. unfold resume, bind, modify, get, notifyPlaybackStarted.
    cbn [player trace mIsPlaying mIsPaused andb negb].
    apply (notify_throws pre o post); assumption.
Qed.

(** ** Pause, resume and the queue *)





End Player.

(** ** The statements at concrete players *)

(** C1 at the spec's scenario: ["a"] and ["b"] enqueued, then [play("c")]. *)
Lemma play_contract_witness :
  thread_ok (player queued_ab) /\
  quiet silent (player queued_ab) /\
  exists w',
    call silent stub_backend (Play "c") queued_ab = Returned tt w' /\
    mQueue (player w') = ["c"] /\
    mCurrentTrack (player w') = "c" /\
    isPlaying (player w') = true.
Proof.
  assert (Hok : thread_ok (player queued_ab)) by (intros _; left; reflexivity).
  assert (Hq : quiet silent (player queued_ab)) by (intros o e _; reflexivity).
  split; [exact Hok|]. split; [exact Hq|].
  destruct (play_contract silent stub_backend "c" queued_ab Hok) as [Hret Hafter].
  destruct (Hret Hq) as [w' Hplay]. exists w'. split; [exact Hplay|].
  destruct (Hafter w' Hplay) as (H1 & H2 & H3 & _). auto.
Defined.


(** C3: from a stopped player the two calls fire nothing at all. *)
Lemma stop_twice_when_stopped_fires_nothing :
  calls silent stub_backend [Stop; Stop] (with_observers [1; 2])
  = Returned tt (with_observers [1; 2]) /\
  trace (with_observers [1; 2]) = [] /\
  count is_stopped_event (trace (with_observers [1; 2])) <> 1.
Proof. repeat split. discriminate. Qed.

(** C3 (amended) at a player that has just started playing. *)
Lemma stop_twice_witness :
  quiet silent (player (just_started ["c"])) /\
  pending_open_succeeds stub_backend (player (just_started ["c"])) /\
  exists w1 new,
    calls silent stub_backend [Stop; Stop] (just_started ["c"]) = Returned tt w1 /\
    trace w1 = trace (just_started ["c"]) ++ new /\
    count is_stopped_event new = 1.
Proof.
  assert (Hq : quiet silent (player (just_started ["c"]))) by (intros o e _; reflexivity).
  assert (Ho : pending_open_succeeds stub_backend (player (just_started ["c"])))
    by (intros _; reflexivity).
  split; [exact Hq|]. split; [exact Ho|].
  destruct (stop_twice silent stub_backend (just_started ["c"]) Hq Ho)
    as (w1 & new & _ & _ & H2 & H3 & H4 & _).
  exists w1, new. auto.
Defined.

(** C4 at a worker that reads 200 seconds on a 180 second track. *)
Lemma repeat_all_requeues_before_next_witness :
  mPlaybackThread (player (polling RepeatMode.All ["c"; "a"])) = Some InLoop /\
  keeps_polling (player (polling RepeatMode.All ["c"; "a"])) = true /\
  (mDuration (player (polling RepeatMode.All ["c"; "a"])) <=? 200)%float = true /\
  exists w1,
    mQueue (player w1) = ["c"; "a"; "c"] /\
    worker_step silent stub_backend 200%float (polling RepeatMode.All ["c"; "a"])
    = next silent stub_backend Worker w1.
Proof.
  split; [reflexivity|]. split; [reflexivity|]. split; [reflexivity|].
  destruct (repeat_all_requeues_before_next silent stub_backend 200%float
              (polling RepeatMode.All ["c"; "a"])
              eq_refl eq_refl eq_refl eq_refl eq_refl (fun o e _ => eq_refl))
    as (w1 & Hp & _ & Hstep & _).
  exists w1. rewrite Hp. split; [reflexivity | exact Hstep].
Defined.

(** C5 with a backend that opens nothing. *)
Lemma open_failure_is_handled_by_worker_witness :
  thread_ok (player (with_observers [1; 2])) /\
  quiet silent (player (with_observers [1; 2])) /\
  broken_backend "c" = false /\
  exists w1 w2,
    call silent broken_backend (Play "c") (with_observers [1; 2]) = Returned tt w1 /\
    worker_step silent broken_backend 0%float w1 = Returned tt w2 /\
    state_of (player w2) = Stopped.
Proof.
  assert (Hok : thread_ok (player (with_observers [1; 2])))
    by (intros _; left; reflexivity).
  assert (Hq : quiet silent (player (with_observers [1; 2])))
    by (intros o e _; reflexivity).
  split; [exact Hok|]. split; [exact Hq|]. split; [reflexivity|].
  destruct (open_failure_is_handled_by_worker silent broken_backend "c" 0%float
              (with_observers [1; 2]) Hok Hq eq_refl)
    as (w1 & w2 & H1 & H2 & H3 & _).
  exists w1, w2. auto.
Defined.

(** C6: an observer registered twice loses both registrations, where
    removing the first match would leave one. *)
Lemma removeObserver_drops_both_registrations :
  call silent stub_backend (RemoveObserver 1) (with_observers [1; 1; 2])
  = Returned tt (with_observers [2]) /\
  remove_first_match 1 [1; 1; 2] = [1; 2] /\
  with_observers [2] <> with_observers (remove_first_match 1 [1; 1; 2]).
Proof. repeat split. discriminate. Qed.

(** C7: observer [7] throws; [play] ends by that exception and observer
    [2], registered after [7], is never called. *)
Lemma throwing_observer_reaches_caller :
  call seven_throws stub_backend (Play "c") (with_observers [1; 7; 2])
  = Threw (observer_failure 7 (TrackChanged "c"))
      (mkWorld
         (mkPlayer true false false 0%float 0%float "c" RepeatMode.None false
            ["c"] [1; 7; 2] (Some AtEntry))
         [Fired (TrackChanged "c"); Invoked 1 (TrackChanged "c");
          Invoked 7 (TrackChanged "c")]).
Proof. reflexivity. Qed.

(** C7 (amended) at the registry [[1; 7; 2]]. *)
Lemma throwing_observer_ends_notification_witness :
  mObservers (player (with_observers [1; 7; 2])) = [1] ++ 7 :: [2] /\
  (forall o', In o' [1] -> seven_throws o' PlaybackStarted = false) /\
  seven_throws 7 PlaybackStarted = true /\
  notify seven_throws PlaybackStarted (with_observers [1; 7; 2])
  = Threw (observer_failure 7 PlaybackStarted)
      (logged (with_observers [1; 7; 2]) (fired PlaybackStarted [1; 7])).
Proof.
  assert (Hpre : forall o', In o' [1] -> seven_throws o' PlaybackStarted = false).
  { intros o' [<-|[]]. reflexivity. }
  split; [reflexivity|]. split; [exact Hpre|]. split; [reflexivity|].
  exact (proj1 (throwing_observer_ends_notification seven_throws stub_backend PlaybackStarted
                  (with_observers [1; 7; 2]) [1] [2] 7 eq_refl Hpre eq_refl)).
Defined.

(** C8: one public call, [seek(-1)], on a new player. *)
Lemma seek_stores_a_negative_position :
  reachable_by silent stub_backend (fun _ => True) nonneg
    (mkWorld (set_mCurrentPosition (-1)%float constructed)
       [Fired (PlaybackProgress (-1)%float 0%float)]) /\
  getCurrentPosition (set_mCurrentPosition (-1)%float constructed) = (-1)%float /\
  (0 <=? getCurrentPosition (set_mCurrentPosition (-1)%float constructed))%float = false.
Proof.
  split; [|split; reflexivity].
  apply (reach_call silent stub_backend _ _ (Seek (-1)%float) fresh).
  - apply reach_constructed.
  - exact I.
  - reflexivity.
Qed.

(** C8 (amended) after [play("c")] and [seek(5)] on a new player. *)
Lemma position_nonneg_when_seeks_are_witness :
  reachable_by silent stub_backend seeks_nonneg nonneg
    (mkWorld
       (mkPlayer true false false 5%float 0%float "c" RepeatMode.None false
          ["c"] [] (Some AtEntry))
       [Fired (TrackChanged "c"); Fired PlaybackStarted;
        Fired (PlaybackProgress 5%float 0%float)]) /\
  nonneg 5%float.
Proof.
  assert (Hr : reachable_by silent stub_backend seeks_nonneg nonneg
                 (mkWorld
                    (mkPlayer true false false 5%float 0%float "c"
                       RepeatMode.None false ["c"] [] (Some AtEntry))
                    [Fired (TrackChanged "c"); Fired PlaybackStarted;
                     Fired (PlaybackProgress 5%float 0%float)])).
  { apply (reach_call silent stub_backend seeks_nonneg nonneg (Seek 5%float)
             (mkWorld
                (mkPlayer true false false 0%float 0%float "c" RepeatMode.None
                   false ["c"] [] (Some AtEntry))
                [Fired (TrackChanged "c"); Fired PlaybackStarted])).
    - apply (reach_call silent stub_backend seeks_nonneg nonneg (Play "c") fresh).
      + apply reach_constructed.
      + exact I.
      + vm_compute. reflexivity.
    - vm_compute. reflexivity.
    - vm_compute. reflexivity. }
  split; [exact Hr|].
  exact (proj1 (position_nonneg_when_seeks_are silent stub_backend _ Hr)).
Defined.


